(** * mapval: result sets and leaf predicates

    A shallow embedding of [libbeat/common/mapval]: the result set of
    [results.go] ([Results], [record], [EachResult], [DetailedErrors],
    [Errors]) and the leaf predicates of the predicate file ([KeyPresent],
    [KeyMissing], [IsAny], [IsStringContaining], [IsEqual],
    [IsEqualToValue]).

    Go maps are finite maps ([gmap]); a pointer receiver that is mutated
    becomes a function returning the new value; a closure that mutates a
    captured variable becomes a visitor that threads that variable as its
    state. *)

From Stdlib Require Import ZArith String Ascii.
From Stdlib Require Import Floats.SpecFloat.
From stdpp Require Import gmap strings list fin_maps pretty.

(** ** Result records *)

(** [ValueResult]: the source builds it positionally, [ValueResult{false, msg}],
    and reads its fields [Valid] and [Message]. *)
Record ValueResult : Type := mkValueResult {
  Valid : bool;
  Message : string
}.

(** The shared record for a passed check. *)
Definition ValidVR : ValueResult := mkValueResult true "".

(** A record that reports a failure. *)
Definition failing (vr : ValueResult) : bool := negb (Valid vr).

(** ** Result sets ([results.go]) *)

Record Results : Type := mkResults {
  Fields : gmap string (list ValueResult);
  Results_Valid : bool
}.

Definition NewResults : Results :=
  {| Fields := ∅; Results_Valid := true |}.

(** [func (r *Results) record(path string, result ValueResult)].
    A path with no entry reads as the nil slice. *)
Definition record (r : Results) (path : string) (result : ValueResult) : Results :=
  let fields :=
    match Fields r !! path with
    | None => <[path := [result]]> (Fields r)
    | Some pathResults => <[path := pathResults ++ [result]]> (Fields r)
    end in
  {| Fields := fields;
     Results_Valid := if negb (Valid result) then false else Results_Valid r |}.

(** The result sets a walk can build: [NewResults()] followed by calls of
    [record]. *)
Inductive reachable : Results → Prop :=
  | reachable_new : reachable NewResults
  | reachable_record r path result :
      reachable r → reachable (record r path result).

(** Every record of a [Fields] map, over all its paths. *)
Definition all_results (fields : gmap string (list ValueResult)) : list ValueResult :=
  mjoin (map_to_list fields).*2.

Definition count_failing (r : Results) : nat :=
  length (filter (λ vr, failing vr = true) (all_results (Fields r))).

(** *** Iteration

    [for path, pathResults := range r.Fields] visits the entries of the map
    in an order Go leaves open.  The order is made explicit: an
    [entries] list is a possible order of a map when it is a permutation of
    the map's entries. *)
Definition range_of (fields : gmap string (list ValueResult))
    (entries : list (string * list ValueResult)) : Prop :=
  entries ≡ₚ map_to_list fields.

(** A callback [func(string, ValueResult) bool] together with the variables
    it captures, of type [S]: it returns their new value and whether to keep
    iterating. *)
Definition Visitor (S : Type) : Type := string → ValueResult → S → S * bool.

(** The inner loop of [EachResult]; the flag tells whether the loop ran to
    its end ([true]) or the function returned from inside it ([false]). *)
Fixpoint eachPathResult {S : Type} (f : Visitor S) (path : string)
    (pathResults : list ValueResult) (s : S) : S * bool :=
  match pathResults with
  | [] => (s, true)
  | result :: rest =>
      let '(s', continue) := f path result s in
      if continue then eachPathResult f path rest s' else (s', false)
  end.

(** The outer loop of [EachResult]. *)
Fixpoint eachEntry {S : Type} (f : Visitor S)
    (entries : list (string * list ValueResult)) (s : S) : S * bool :=
  match entries with
  | [] => (s, true)
  | (path, pathResults) :: rest =>
      let '(s', continue) := eachPathResult f path pathResults s in
      if continue then eachEntry f rest s' else (s', false)
  end.

(** [func (r Results) EachResult(f func(string, ValueResult) bool)], over the
    entries of [r.Fields] in the order [entries]. *)
Definition EachResult {S : Type} (entries : list (string * list ValueResult))
    (f : Visitor S) (s : S) : S :=
  (eachEntry f entries s).1.

(** [func (r *Results) DetailedErrors() *Results]: the callback captures
    [errors]. *)
Definition DetailedErrors (entries : list (string * list ValueResult)) : Results :=
  EachResult entries
    (λ path vr errors,
       (if negb (Valid vr) then record errors path vr else errors, true))
    NewResults.

Record ValueResultError : Type := mkValueResultError {
  path : string;
  valueResult : ValueResult
}.

(** [fmt.Sprintf("@path '%s': %s", vre.path, vre.valueResult.Message)]. *)
Definition Error (vre : ValueResultError) : string :=
  "@path '" +:+ path vre +:+ "': " +:+ Message (valueResult vre).

(** [func (r Results) Errors() []error]: the callback captures [errors]. *)
Definition Errors (entries : list (string * list ValueResult)) : list ValueResultError :=
  EachResult entries
    (λ path vr errors,
       (if negb (Valid vr) then errors ++ [mkValueResultError path vr] else errors, true))
    [].

(** The calls [f(path, result)] that [EachResult] makes when nothing stops
    it, in order. *)
Definition visits (entries : list (string * list ValueResult)) : list (string * ValueResult) :=
  entries ≫= (λ e, (λ vr, (e.1, vr)) <$> e.2).

(** A visitor that also logs each call it receives. *)
Definition logging {S : Type} (f : Visitor S) : Visitor (S * list (string * ValueResult)) :=
  λ path vr st,
    let '(s', continue) := f path vr st.1 in
    ((s', st.2 ++ [(path, vr)]), continue).

(** *** The iteration as a walk over a flat list of calls *)

(** The calls made on the flat list [calls], stopping after the first call
    that returns [false]: the final state, the calls made, and whether the
    walk reached the end. *)
Fixpoint walk {S : Type} (f : Visitor S) (calls : list (string * ValueResult))
    (s : S) : S * list (string * ValueResult) * bool :=
  match calls with
  | [] => (s, [], true)
  | c :: rest =>
      let '(s', continue) := f c.1 c.2 s in
      if continue
      then let '(s'', made, fin) := walk f rest s' in (s'', c :: made, fin)
      else (s', [c], false)
  end.

(** The state after the calls [calls] were made in order. *)
Definition state_after {S : Type} (f : Visitor S) (s : S)
    (calls : list (string * ValueResult)) : S :=
  foldl (λ s c, (f c.1 c.2 s).1) s calls.

(** Recording a sequence of calls, in order. *)
Definition record_all (r : Results) (calls : list (string * ValueResult)) : Results :=
  foldl (λ acc c, record acc c.1 c.2) r calls.

(** A small result set, built as a walk would: two records at ["a"], one of
    them failing, and a failing one at ["b"]. *)
Definition sample_results : Results :=
  record (record (record NewResults "a" ValidVR)
                 "b" (mkValueResult false "expected to see a key here"))
         "a" (mkValueResult false "objects not equal").

(** A visitor that counts its calls and stops at the first failing record. *)
Definition stop_at_failure : Visitor nat :=
  λ _ vr n, (S n, Valid vr).

(** ** Go values

    The [interface{}] values the leaf predicates inspect, as a tagged union
    of the kinds that occur at the leaves of an event: the nil interface,
    booleans, [int]s (64 bits wide), [float64]s (IEEE 754 binary64, as
    [spec_float]), strings (byte sequences), [time.Duration]s (a named type
    over [int64]) and [[]interface{}] slices ([None] is the nil slice).  Two
    slice values are taken to be distinct objects: they share no backing
    array. *)
Unset Elimination Schemes.
Inductive value : Type :=
  | Nil
  | Bool (b : bool)
  | Int (n : Z)
  | Float64 (f : spec_float)
  | Str (s : string)
  | Duration (d : Z)
  | Slice (l : option (list value)).
Set Elimination Schemes.

(** The dynamic types of these values. *)
Inductive gotype : Type :=
  | TBool | TInt | TFloat64 | TString | TDuration | TSlice.

(** [reflect.TypeOf]: the nil interface has no type. *)
Definition TypeOf (v : value) : option gotype :=
  match v with
  | Nil => None
  | Bool _ => Some TBool
  | Int _ => Some TInt
  | Float64 _ => Some TFloat64
  | Str _ => Some TString
  | Duration _ => Some TDuration
  | Slice _ => Some TSlice
  end.

(** [reflect.DeepEqual]: values of different types are never deeply equal;
    floats compare with [==], so a NaN equals nothing and the two zeros are
    equal; slices are equal when both are nil or both are not, they have the
    same length and their elements are deeply equal. *)
Fixpoint DeepEqual (x y : value) : bool :=
  match x, y with
  | Nil, Nil => true
  | Bool a, Bool b => Bool.eqb a b
  | Int a, Int b => (a =? b)%Z
  | Float64 a, Float64 b => SFeqb a b
  | Str a, Str b => String.eqb a b
  | Duration a, Duration b => (a =? b)%Z
  | Slice None, Slice None => true
  | Slice (Some xs), Slice (Some ys) =>
      (fix elems (xs ys : list value) : bool :=
         match xs, ys with
         | [], [] => true
         | x :: xs', y :: ys' => DeepEqual x y && elems xs' ys'
         | _, _ => false
         end) xs ys
  | _, _ => false
  end.

(** testify's [assert.ObjectsAreEqual(expected, actual)]: a nil interface
    equals only a nil interface; its branch for [[]byte] does not arise
    here; everything else is [reflect.DeepEqual]. *)
Definition ObjectsAreEqual (expected actual : value) : bool :=
  match expected, actual with
  | Nil, Nil => true
  | Nil, _ | _, Nil => false
  | _, _ => DeepEqual expected actual
  end.

(** *** Conversion ([reflect.Type.ConvertibleTo], [reflect.Value.Convert]) *)

Definition ConvertibleTo (src dst : gotype) : bool :=
  match src, dst with
  | (TInt | TDuration), (TInt | TDuration | TFloat64 | TString) => true
  | TFloat64, (TInt | TDuration | TFloat64) => true
  | TBool, TBool | TString, TString | TSlice, TSlice => true
  | _, _ => false
  end.

Definition byte_string (n : Z) : string := String (ascii_of_N (Z.to_N n)) "".

(** [string(rune(n))]: the UTF-8 encoding of the code point [n], and of
    U+FFFD when [n] is no valid code point. *)
Definition string_of_rune (n : Z) : string :=
  if (n <? 0)%Z || (1114111 <? n)%Z || ((55296 <=? n)%Z && (n <=? 57343)%Z)
  then byte_string 239 +:+ byte_string 191 +:+ byte_string 189
  else if (n <? 128)%Z then byte_string n
  else if (n <? 2048)%Z then
    byte_string (Z.lor 192 (Z.shiftr n 6)) +:+
    byte_string (Z.lor 128 (Z.land n 63))
  else if (n <? 65536)%Z then
    byte_string (Z.lor 224 (Z.shiftr n 12)) +:+
    byte_string (Z.lor 128 (Z.land (Z.shiftr n 6) 63)) +:+
    byte_string (Z.lor 128 (Z.land n 63))
  else
    byte_string (Z.lor 240 (Z.shiftr n 18)) +:+
    byte_string (Z.lor 128 (Z.land (Z.shiftr n 12) 63)) +:+
    byte_string (Z.lor 128 (Z.land (Z.shiftr n 6) 63)) +:+
    byte_string (Z.lor 128 (Z.land n 63)).

(** [float64(n)] for an integer [n]: rounded to the nearest float, ties to
    even. *)
Definition float64_of_int (n : Z) : spec_float :=
  binary_normalize 53 1024 n 0 false.

Definition min_int64 : Z := (- 2 ^ 63)%Z.
Definition max_int64 : Z := (2 ^ 63 - 1)%Z.

(** [int64(f)] for a float [f]: the fraction is discarded.  Go leaves the
    result open when the value does not fit; it is the one of the amd64
    instruction, the least int64. *)
Definition int_of_float64 (f : spec_float) : Z :=
  match f with
  | S754_zero _ => 0%Z
  | S754_finite s m e =>
      let magnitude :=
        if (0 <=? e)%Z then (Z.pos m * 2 ^ e)%Z else (Z.pos m / 2 ^ (- e))%Z in
      let n := if s then (- magnitude)%Z else magnitude in
      if (min_int64 <=? n)%Z && (n <=? max_int64)%Z then n else min_int64
  | S754_infinity _ | S754_nan => min_int64
  end.

(** [v.Convert(dst)], for a [dst] that the type of [v] converts to; [None]
    where Go panics. *)
Definition Convert (v : value) (dst : gotype) : option value :=
  match v, dst with
  | (Int n | Duration n), TInt => Some (Int n)
  | (Int n | Duration n), TDuration => Some (Duration n)
  | (Int n | Duration n), TFloat64 => Some (Float64 (float64_of_int n))
  | (Int n | Duration n), TString => Some (Str (string_of_rune n))
  | Float64 f, TInt => Some (Int (int_of_float64 f))
  | Float64 f, TDuration => Some (Duration (int_of_float64 f))
  | Float64 f, TFloat64 => Some (Float64 f)
  | Bool b, TBool => Some (Bool b)
  | Str s, TString => Some (Str s)
  | Slice l, TSlice => Some (Slice l)
  | _, _ => None
  end.

(** testify's [assert.ObjectsAreEqualValues(expected, actual)]: equal
    objects, or, when the type of [expected] converts to the type of
    [actual], deeply equal after that conversion. *)
Definition ObjectsAreEqualValues (expected actual : value) : bool :=
  if ObjectsAreEqual expected actual then true
  else
    match TypeOf actual with
    | None => false
    | Some actualType =>
        match TypeOf expected with
        | Some expectedType =>
            if ConvertibleTo expectedType actualType
            then
              match Convert expected actualType with
              | Some converted => DeepEqual converted actual
              | None => false
              end
            else false
        | None => false
        end
    end.

(** *** Strings *)

(** [strings.HasPrefix]. *)
Fixpoint HasPrefix (s prefix : string) {struct prefix} : bool :=
  match prefix, s with
  | EmptyString, _ => true
  | String c prefix', String d s' => if Ascii.eqb c d then HasPrefix s' prefix' else false
  | String _ _, EmptyString => false
  end.

(** [strings.Contains]: [substr] occurs somewhere in [s]. *)
Fixpoint Contains (s substr : string) : bool :=
  HasPrefix s substr ||
  match s with
  | EmptyString => false
  | String _ s' => Contains s' substr
  end.

(** *** Formatting

    The [fmt] verbs the messages use on a value, [%v] and [%#v], and
    [strconv.Quote], which [%#v] applies to each string of a [[]string].
    They are taken as given. *)
Record Fmt : Type := mkFmt {
  fmt_v : value → string;
  fmt_sharp_v : value → string;
  Quote : string → string
}.

(** [%#v] of a non-nil [[]string]. *)
Definition fmt_sharp_v_strings (F : Fmt) (names : list string) : string :=
  "[]string{" +:+ String.concat ", " (Quote F <$> names) +:+ "}".

(** ** Predicates *)

(** [type ValueValidator func(v interface{}) ValueResult]. *)
Definition ValueValidator : Type := value → ValueResult.

(** [IsDef]: the source sets its fields [name] and [checkKeyMissing] and
    builds the rest through [Is]; [checker] is the checking function, absent
    from [KeyPresent] and [KeyMissing]. *)
Record IsDef : Type := mkIsDef {
  name : string;
  checker : option ValueValidator;
  checkKeyMissing : bool
}.

(** Modelled from the spec: the constructor [Is(name, checkFn)], which is not
    in the source files at hand; it wraps a checking function into a
    predicate and attaches the name. *)
Definition Is (name : string) (checker : ValueValidator) : IsDef :=
  {| name := name; checker := Some checker; checkKeyMissing := false |}.

(** Modelled from the spec: the method [check(v, keyExists)] of [IsDef],
    which is not in the source files at hand.  A missing-key predicate is
    settled by the existence of the key alone; any other predicate does not
    match an absent key, and on a present key it is the checking function
    applied to the value, or a match when there is none ([KeyPresent]).  The
    spec gives no wording for the two messages. *)
Definition check (id : IsDef) (v : value) (keyExists : bool) : ValueResult :=
  if checkKeyMissing id then
    if keyExists then mkValueResult false "key should not exist!" else ValidVR
  else if negb keyExists then mkValueResult false "expected to see a key here"
  else
    match checker id with
    | Some checkFn => checkFn v
    | None => ValidVR
    end.

(** Modelled from the spec: the walker's step at a leaf, which is not in the
    source files at hand.  It looks the key up in the enclosing map and hands
    the predicate the value found, or the nil placeholder and [false] when
    the key is absent. *)
Definition checkKey (id : IsDef) (m : gmap string value) (key : string) : ValueResult :=
  match m !! key with
  | Some v => check id v true
  | None => check id Nil false
  end.

Definition KeyPresent : IsDef :=
  {| name := "check key present"; checker := None; checkKeyMissing := false |}.

Definition KeyMissing : IsDef :=
  {| name := "check key not present"; checker := None; checkKeyMissing := true |}.

Section predicates.
Context (F : Fmt).

(** The loop of [IsAny]: the first valid record, if any. *)
Fixpoint firstValid (of_ : list IsDef) (v : value) : option ValueResult :=
  match of_ with
  | [] => None
  | def :: rest =>
      let vr := check def v true in
      if Valid vr then Some vr else firstValid rest v
  end.

Definition IsAny (of_ : list IsDef) : IsDef :=
  let names := name <$> of_ in
  let isName := "either " +:+ fmt_sharp_v_strings F names in
  Is isName (λ v,
    match firstValid of_ v with
    | Some vr => vr
    | None =>
        mkValueResult false
          ("Value was none of " +:+ fmt_sharp_v_strings F names +:+
           ", actual value was " +:+ fmt_sharp_v F v)
    end).

Definition IsStringContaining (needle : string) : IsDef :=
  Is "is string containing" (λ v,
    match v with
    | Str strV =>
        if negb (Contains strV needle)
        then mkValueResult false
               ("String '" +:+ strV +:+ "' did not contain substring '" +:+
                needle +:+ "'")
        else ValidVR
    | _ =>
        mkValueResult false ("Unable to convert '" +:+ fmt_v F v +:+ "' to string")
    end).

Definition IsEqual (to : value) : IsDef :=
  Is "equals" (λ v,
    if ObjectsAreEqual v to then ValidVR
    else mkValueResult false
           ("objects not equal: actual(" +:+ fmt_v F v +:+ ") != expected(" +:+
            fmt_v F to +:+ ")")).

Definition IsEqualToValue (to : value) : IsDef :=
  Is "equals" (λ v,
    if ObjectsAreEqualValues v to then ValidVR
    else mkValueResult false
           ("values not equal: actual(" +:+ fmt_v F v +:+ ") != expected(" +:+
            fmt_v F to +:+ ")")).

Definition IsNil : IsDef :=
  Is "is nil" (λ v,
    match v with
    | Nil => ValidVR
    | _ => mkValueResult false ("Value " +:+ fmt_v F v +:+ " is not nil")
    end).
End predicates.

(** *** Values without a NaN, and values up to the sign of a zero *)

Definition float_no_nan (f : spec_float) : bool :=
  match f with S754_nan => false | _ => true end.

Fixpoint no_nan (v : value) : bool :=
  match v with
  | Float64 f => float_no_nan f
  | Slice (Some l) => forallb no_nan l
  | _ => true
  end.

Definition float_zero_blind (f : spec_float) : spec_float :=
  match f with S754_zero _ => S754_zero false | _ => f end.

(** The value with every negative float zero replaced by the positive one. *)
Fixpoint zero_blind (v : value) : value :=
  match v with
  | Float64 f => Float64 (float_zero_blind f)
  | Slice (Some l) => Slice (Some (map zero_blind l))
  | _ => v
  end.

(** *** Values and a formatter for closed examples *)

Definition float_one : value := Float64 (float64_of_int 1).
Definition pos_zero : value := Float64 (S754_zero false).
Definition neg_zero : value := Float64 (S754_zero true).

Definition dquote : string := String "034"%char "".

(** A formatter for closed examples: it renders nil, booleans and ints as
    [fmt] does, a string as itself under [%v] and between double quotes, with
    no escaping, under [%#v] and [Quote]; the other kinds are rendered by
    the name of their type alone. *)
Definition fmt_plain : Fmt :=
  let plain (quote : string → string) (v : value) : string :=
    match v with
    | Nil => "<nil>"
    | Bool true => "true"
    | Bool false => "false"
    | Int n => pretty n
    | Str s => quote s
    | Float64 _ => "float64"
    | Duration _ => "time.Duration"
    | Slice _ => "[]interface {}"
    end in
  {| fmt_v := plain id;
     fmt_sharp_v := plain (λ s, dquote +:+ s +:+ dquote);
     Quote := λ s, dquote +:+ s +:+ dquote |}.

(** ** The remaining predicates *)

(** [%T]: the name of the dynamic type of a value. *)
Definition fmt_T (v : value) : string :=
  match v with
  | Nil => "<nil>"
  | Bool _ => "bool"
  | Int _ => "int"
  | Float64 _ => "float64"
  | Str _ => "string"
  | Duration _ => "time.Duration"
  | Slice _ => "[]interface {}"
  end.

Definition IsDuration (F : Fmt) : IsDef :=
  Is "is a duration" (λ v,
    match v with
    | Duration _ => ValidVR
    | _ =>
        mkValueResult false
          ("Expected a time.duration, got '" +:+ fmt_v F v +:+ "' which is a " +:+
           fmt_T v)
    end).

(** [func intGtChecker(than int) ValueValidator]: [n] and [than] reach
    [Sprintf] as [int]s. *)
Definition intGtChecker (F : Fmt) (than : Z) : ValueValidator :=
  λ v,
    match v with
    | Int n =>
        if (n >? than)%Z then ValidVR
        else mkValueResult false
               (fmt_v F (Int n) +:+ " is not greater than " +:+ fmt_v F (Int than))
    | _ =>
        mkValueResult false
          (fmt_v F v +:+ " is a " +:+ fmt_T v +:+ ", but was expecting an int!")
    end.

Definition IsIntGt (F : Fmt) (than : Z) : IsDef :=
  Is "greater than" (intGtChecker F than).

(** Every path of a [Fields] map holds at least one record. *)
Definition nonempty_fields (fields : gmap string (list ValueResult)) : Prop :=
  ∀ p l, fields !! p = Some l → l ≠ [].

(** A visitor that stops at its first call. *)
Definition stop_at_once : Visitor nat :=
  λ _ _ n, (S n, false).

(** Calls of [record] for closed examples. *)
Definition sample_calls : list (string * ValueResult) :=
  [("a", ValidVR);
   ("b", mkValueResult false "expected to see a key here");
   ("a", mkValueResult false "objects not equal")].

(** * Properties *)

(** ** Result sets *)

Section results_lemmas.
Implicit Types (r : Results) (vr result : ValueResult).
Implicit Types (entries : list (string * list ValueResult)).
Implicit Types (calls : list (string * ValueResult)).

Lemma forallb_Permutation {A} (f : A → bool) (l l' : list A) :
  l ≡ₚ l' → forallb f l = forallb f l'.
Proof.
  induction 1 as [|x l l' _ IH|x y l|l l' l'' _ IH1 _ IH2]; simpl.
  - done.
  - by rewrite IH.
  - by destruct (f x), (f y).
  - by rewrite IH1.
Qed.

(** [record] adds exactly one record to the set of all records. *)
Lemma all_results_record r p result :
  all_results (Fields (record r p result)) ≡ₚ result :: all_results (Fields r).
Proof.
  unfold all_results, record; simpl.
  destruct (Fields r !! p) as [l|] eqn:Hp.
  - rewrite <- (insert_delete_eq (Fields r)).
    rewrite map_to_list_insert by apply lookup_delete_eq.
    rewrite <- (map_to_list_delete (Fields r) p l Hp).
    simpl. rewrite <- app_assoc. simpl.
    symmetry. apply Permutation_middle.
  - rewrite map_to_list_insert by done. done.
Qed.

Lemma Results_Valid_record r p result :
  Results_Valid (record r p result) = Results_Valid r && Valid result.
Proof. simpl. by destruct (Valid result), (Results_Valid r). Qed.

Lemma reachable_Valid r :
  reachable r → Results_Valid r = forallb Valid (all_results (Fields r)).
Proof.
  induction 1 as [|r p result _ IH].
  - done.
  - rewrite Results_Valid_record, (forallb_Permutation _ _ _ (all_results_record r p result)).
    simpl. rewrite IH. apply andb_comm.
Qed.


(** *** [EachResult] as a walk over the flat list of calls *)

Lemma visits_cons p l entries :
  visits ((p, l) :: entries) = ((λ vr, (p, vr)) <$> l) ++ visits entries.
Proof. done. Qed.

Lemma visits_snd entries : (visits entries).*2 = mjoin entries.*2.
Proof.
  induction entries as [|[p l] entries IH]; [done|].
  rewrite visits_cons, fmap_app, IH. simpl. f_equal.
  rewrite <- list_fmap_compose. apply list_fmap_id.
Qed.

Lemma visits_Permutation entries entries' :
  entries ≡ₚ entries' → visits entries ≡ₚ visits entries'.
Proof. intros H. unfold visits. by rewrite H. Qed.

Lemma elem_of_visits entries p vr :
  (p, vr) ∈ visits entries ↔ ∃ l, (p, l) ∈ entries ∧ vr ∈ l.
Proof.
  unfold visits. rewrite list_elem_of_bind. split.
  - intros ([p' l] & Hin & He). simpl in Hin.
    apply list_elem_of_fmap in Hin as (vr' & [= -> ->] & Hvr). eauto.
  - intros (l & He & Hvr). exists (p, l). split; [|done].
    simpl. apply list_elem_of_fmap. eauto.
Qed.

Lemma elem_of_visits_range r entries p vr :
  range_of (Fields r) entries →
  (p, vr) ∈ visits entries ↔ ∃ l, Fields r !! p = Some l ∧ vr ∈ l.
Proof.
  intros Hr. rewrite elem_of_visits. unfold range_of in Hr.
  split; intros (l & Hl & Hvr); exists l; split; try done.
  - apply elem_of_map_to_list. by rewrite <- Hr.
  - rewrite Hr. by apply elem_of_map_to_list.
Qed.

Lemma walk_app {S} (f : Visitor S) calls1 calls2 s :
  walk f (calls1 ++ calls2) s =
    let '(s1, made1, fin1) := walk f calls1 s in
    if fin1
    then let '(s2, made2, fin2) := walk f calls2 s1 in (s2, made1 ++ made2, fin2)
    else (s1, made1, false).
Proof.
  revert s. induction calls1 as [|c calls1 IH]; intros s; simpl.
  - by destruct (walk f calls2 s) as [[??]?].
  - destruct (f c.1 c.2 s) as [s' [|]]; [|done].
    rewrite IH. destruct (walk f calls1 s') as [[s1 made1] [|]]; [|done].
    by destruct (walk f calls2 s1) as [[??]?].
Qed.

Lemma eachPathResult_logging {S} (f : Visitor S) p l s log :
  eachPathResult (logging f) p l (s, log) =
    let '(s', made, fin) := walk f ((λ vr, (p, vr)) <$> l) s in
    ((s', log ++ made), fin).
Proof.
  revert s log. induction l as [|vr l IH]; intros s log; simpl.
  - by rewrite app_nil_r.
  - unfold logging at 1. simpl. destruct (f p vr s) as [s' [|]]; simpl.
    + rewrite IH. destruct (walk f _ s') as [[s'' made] fin].
      by rewrite <- app_assoc.
    + done.
Qed.

Lemma eachEntry_logging {S} (f : Visitor S) entries s log :
  eachEntry (logging f) entries (s, log) =
    let '(s', made, fin) := walk f (visits entries) s in
    ((s', log ++ made), fin).
Proof.
  revert s log. induction entries as [|[p l] entries IH]; intros s log.
  - simpl. by rewrite app_nil_r.
  - rewrite visits_cons, walk_app. simpl.
    rewrite eachPathResult_logging.
    destruct (walk f _ s) as [[s1 made1] [|]]; [|done].
    rewrite IH. destruct (walk f (visits entries) s1) as [[s2 made2] fin2].
    by rewrite app_assoc.
Qed.

Lemma walk_prefix {S} (f : Visitor S) calls s :
  (walk f calls s).1.2 `prefix_of` calls.
Proof.
  revert s. induction calls as [|c calls IH]; intros s; simpl.
  - done.
  - destruct (f c.1 c.2 s) as [s' [|]].
    + specialize (IH s'). destruct (walk f calls s') as [[s'' made] fin].
      simpl in *. by apply prefix_cons.
    + simpl. apply prefix_cons, prefix_nil.
Qed.

Lemma walk_state {S} (f : Visitor S) calls s :
  (walk f calls s).1.1 = state_after f s (walk f calls s).1.2.
Proof.
  revert s. induction calls as [|c calls IH]; intros s; simpl.
  - done.
  - destruct (f c.1 c.2 s) as [s' [|]] eqn:Hf.
    + specialize (IH s'). destruct (walk f calls s') as [[s'' made] fin].
      simpl in *. by rewrite Hf.
    + simpl. by rewrite Hf.
Qed.

Lemma walk_all {S} (f : Visitor S) calls s :
  (∀ p vr s, (f p vr s).2 = true) →
  walk f calls s = (state_after f s calls, calls, true).
Proof.
  intros Hf. revert s. induction calls as [|c calls IH]; intros s; simpl.
  - done.
  - specialize (Hf c.1 c.2 s). destruct (f c.1 c.2 s) as [s' k].
    simpl in Hf. subst k. by rewrite IH.
Qed.

(** A call that returned [false] is the last one made. *)
Lemma walk_stop {S} (f : Visitor S) calls s pre c :
  pre ++ [c] `prefix_of` (walk f calls s).1.2 →
  (f c.1 c.2 (state_after f s pre)).2 = false →
  (walk f calls s).1.2 = pre ++ [c].
Proof.
  revert s pre. induction calls as [|c' calls IH]; intros s pre; simpl.
  - intros Hp. apply prefix_nil_inv in Hp. by destruct pre.
  - destruct (f c'.1 c'.2 s) as [s' [|]] eqn:Hf.
    + specialize (IH s'). destruct (walk f calls s') as [[s'' made] fin].
      simpl in *. destruct pre as [|c0 pre]; simpl.
      * intros Hp Hc. apply prefix_cons_inv_1 in Hp. subst c'.
        rewrite Hf in Hc. done.
      * intros Hp Hc. pose proof (prefix_cons_inv_1 _ _ _ _ Hp). subst c0.
        apply prefix_cons_inv_2 in Hp. rewrite Hf in Hc. simpl in Hc.
        f_equal. by apply IH.
    + simpl. intros Hp _. destruct pre as [|c0 pre]; simpl in *.
      * apply prefix_cons_inv_1 in Hp. by subst.
      * apply prefix_cons_inv_2 in Hp. apply prefix_nil_inv in Hp.
        by destruct pre.
Qed.

(** A walk that did not reach the end stopped at a call that returned
    [false]. *)
Lemma walk_unfinished {S} (f : Visitor S) calls s :
  (walk f calls s).2 = false →
  ∃ pre c, (walk f calls s).1.2 = pre ++ [c] ∧
           (f c.1 c.2 (state_after f s pre)).2 = false.
Proof.
  revert s. induction calls as [|c' calls IH]; intros s; simpl.
  - done.
  - destruct (f c'.1 c'.2 s) as [s' [|]] eqn:Hf.
    + specialize (IH s'). destruct (walk f calls s') as [[s'' made] fin].
      simpl in *. intros Hfin. destruct (IH Hfin) as (pre & c & -> & Hc).
      exists (c' :: pre), c. split; [done|]. simpl. by rewrite Hf.
    + intros _. exists [], c'. split; [done|]. simpl. by rewrite Hf.
Qed.

Lemma walk_finished {S} (f : Visitor S) calls s :
  (walk f calls s).2 = true → (walk f calls s).1.2 = calls.
Proof.
  revert s. induction calls as [|c' calls IH]; intros s; simpl.
  - done.
  - destruct (f c'.1 c'.2 s) as [s' [|]] eqn:Hf; [|done].
    specialize (IH s'). destruct (walk f calls s') as [[s'' made] fin].
    simpl in *. intros Hfin. by rewrite IH.
Qed.
End results_lemmas.

Section results_views.
Implicit Types (r : Results) (vr result : ValueResult).
Implicit Types (entries : list (string * list ValueResult)).
Implicit Types (calls : list (string * ValueResult)).

(** *** A callback that never stops the iteration *)

Lemma eachPathResult_continue {S} (f : Visitor S) p l s :
  (∀ p vr s, (f p vr s).2 = true) →
  eachPathResult f p l s = (state_after f s ((λ vr, (p, vr)) <$> l), true).
Proof.
  intros Hf. revert s. induction l as [|vr l IH]; intros s; simpl; [done|].
  specialize (Hf p vr s). destruct (f p vr s) as [s' k]. simpl in Hf. subst k.
  apply IH.
Qed.

Lemma eachEntry_continue {S} (f : Visitor S) entries s :
  (∀ p vr s, (f p vr s).2 = true) →
  eachEntry f entries s = (state_after f s (visits entries), true).
Proof.
  intros Hf. revert s. induction entries as [|[p l] entries IH]; intros s; [done|].
  rewrite visits_cons. unfold state_after. rewrite foldl_app. simpl.
  rewrite eachPathResult_continue by done. apply IH.
Qed.

(** *** What [record] stores *)

Lemma record_lookup r p' result p :
  default [] (Fields (record r p' result) !! p) =
    default [] (Fields r !! p) ++ (if decide (p' = p) then [result] else []).
Proof.
  unfold record; simpl. destruct (decide (p' = p)) as [->|Hne].
  - destruct (Fields r !! p) as [l|] eqn:Hp; by rewrite lookup_insert_eq.
  - rewrite app_nil_r.
    destruct (Fields r !! p') as [l|]; by rewrite lookup_insert_ne.
Qed.

Lemma record_all_lookup r calls p :
  default [] (Fields (record_all r calls) !! p) =
    default [] (Fields r !! p) ++ (filter (λ c, c.1 = p) calls).*2.
Proof.
  revert r. induction calls as [|[p' result] calls IH]; intros r; simpl.
  - by rewrite app_nil_r.
  - unfold record_all in *. simpl. rewrite IH, record_lookup.
    rewrite filter_cons. simpl. rewrite <- app_assoc.
    by destruct (decide (p' = p)).
Qed.

Lemma all_results_record_all r calls :
  all_results (Fields (record_all r calls)) ≡ₚ all_results (Fields r) ++ calls.*2.
Proof.
  revert r. induction calls as [|[p result] calls IH]; intros r; simpl.
  - by rewrite app_nil_r.
  - unfold record_all in *. simpl. rewrite IH, all_results_record.
    simpl. apply Permutation_middle.
Qed.

(** *** The calls of an iteration, by path *)

Lemma filter_path_same p (l : list ValueResult) :
  filter (λ c : string * ValueResult, c.1 = p) ((λ vr, (p, vr)) <$> l) =
    (λ vr, (p, vr)) <$> l.
Proof.
  induction l as [|vr l IH]; [done|].
  rewrite fmap_cons, filter_cons, IH. cbn [fst].
  by destruct (decide (p = p)).
Qed.

Lemma filter_path_other p p' (l : list ValueResult) :
  p' ≠ p →
  filter (λ c : string * ValueResult, c.1 = p) ((λ vr, (p', vr)) <$> l) = [].
Proof.
  intros Hne. induction l as [|vr l IH]; [done|].
  rewrite fmap_cons, filter_cons, IH. cbn [fst].
  by destruct (decide (p' = p)).
Qed.

Lemma visits_absent entries p :
  p ∉ entries.*1 → filter (λ c, c.1 = p) (visits entries) = [].
Proof.
  induction entries as [|[p' l] entries IH]; intros Hp; [done|].
  rewrite fmap_cons in Hp. apply not_elem_of_cons in Hp as [Hne Hp].
  rewrite visits_cons, filter_app, IH by done.
  rewrite app_nil_r. apply filter_path_other. by intros ->.
Qed.

Lemma visits_present entries p (l : list ValueResult) :
  NoDup entries.*1 → (p, l) ∈ entries →
  filter (λ c, c.1 = p) (visits entries) = (λ vr, (p, vr)) <$> l.
Proof.
  induction entries as [|[p' l'] entries IH]; intros Hnd Hin.
  - by apply elem_of_nil in Hin.
  - rewrite fmap_cons in Hnd. apply NoDup_cons in Hnd as [Hp' Hnd].
    rewrite visits_cons, filter_app.
    apply elem_of_cons in Hin as [[= <- <-]|Hin].
    + rewrite visits_absent by done. rewrite app_nil_r.
      apply filter_path_same.
    + rewrite IH by done.
      rewrite filter_path_other; [done|].
      intros ->. apply Hp'. apply list_elem_of_fmap. by exists (p, l).
Qed.

Lemma visits_at_path r entries p :
  range_of (Fields r) entries →
  filter (λ c, c.1 = p) (visits entries) =
    (λ vr, (p, vr)) <$> default [] (Fields r !! p).
Proof.
  intros Hr. unfold range_of in Hr.
  assert (NoDup entries.*1) as Hnd.
  { rewrite Hr. apply NoDup_fst_map_to_list. }
  destruct (Fields r !! p) as [l|] eqn:Hp; simpl.
  - apply visits_present; [done|]. rewrite Hr. by apply elem_of_map_to_list.
  - apply visits_absent. intros Hin.
    apply list_elem_of_fmap in Hin as ([p' l] & -> & Hin).
    rewrite Hr in Hin. apply elem_of_map_to_list in Hin. simpl in *. congruence.
Qed.

Lemma visits_all_results r entries :
  range_of (Fields r) entries → (visits entries).*2 ≡ₚ all_results (Fields r).
Proof.
  intros Hr. rewrite visits_snd. unfold all_results. by rewrite Hr.
Qed.

(** *** [DetailedErrors] and [Errors] as filters *)

Lemma DetailedErrors_record_all entries :
  DetailedErrors entries =
    record_all NewResults (filter (λ c, failing c.2 = true) (visits entries)).
Proof.
  unfold DetailedErrors, EachResult. rewrite eachEntry_continue by done.
  simpl. generalize NewResults. unfold state_after, record_all, failing.
  induction (visits entries) as [|[p vr] calls IH]; intros e; [done|].
  simpl. rewrite filter_cons. simpl.
  destruct (Valid vr); simpl; rewrite IH; [|done].
  by destruct (decide (false = true)).
Qed.

Lemma Errors_state calls (acc : list ValueResultError) :
  state_after
    (λ path vr errors,
       (if negb (Valid vr) then errors ++ [mkValueResultError path vr] else errors, true))
    acc calls =
  acc ++ ((λ c, mkValueResultError c.1 c.2) <$>
            filter (λ c, failing c.2 = true) calls).
Proof.
  unfold state_after, failing. revert acc.
  induction calls as [|[p vr] calls IH]; intros acc; simpl.
  - by rewrite app_nil_r.
  - rewrite filter_cons. simpl. rewrite IH.
    destruct (Valid vr); simpl.
    + by destruct (decide (false = true)).
    + by rewrite <- app_assoc.
Qed.

Lemma Errors_filter entries :
  Errors entries =
    (λ c, mkValueResultError c.1 c.2) <$>
      filter (λ c, failing c.2 = true) (visits entries).
Proof.
  unfold Errors, EachResult. rewrite eachEntry_continue by done.
  simpl. by rewrite Errors_state.
Qed.

Lemma filter_failing_snd calls :
  (filter (λ c, failing c.2 = true) calls).*2 =
    filter (λ vr, failing vr = true) calls.*2.
Proof.
  induction calls as [|[p vr] calls IH]; [done|].
  rewrite fmap_cons, !filter_cons. cbn [snd].
  destruct (decide (failing vr = true)); [rewrite fmap_cons|]; by rewrite IH.
Qed.

Lemma filter_failing_pair p (l : list ValueResult) :
  filter (λ c : string * ValueResult, failing c.2 = true) ((λ vr, (p, vr)) <$> l) =
    (λ vr, (p, vr)) <$> filter (λ vr, failing vr = true) l.
Proof.
  induction l as [|vr l IH]; [done|].
  rewrite fmap_cons, !filter_cons. cbn [snd].
  destruct (decide (failing vr = true)); [rewrite fmap_cons|]; by rewrite IH.
Qed.

Lemma filter_comm {A} (P Q : A → Prop) `{!∀ x, Decision (P x)} `{!∀ x, Decision (Q x)}
    (l : list A) :
  filter P (filter Q l) = filter Q (filter P l).
Proof.
  rewrite !list_filter_filter. apply list_filter_iff. tauto.
Qed.

Lemma DetailedErrors_lookup r entries p :
  range_of (Fields r) entries →
  default [] (Fields (DetailedErrors entries) !! p) =
    filter (λ vr, failing vr = true) (default [] (Fields r !! p)).
Proof.
  intros Hr. rewrite DetailedErrors_record_all, record_all_lookup. simpl.
  rewrite lookup_empty. simpl.
  rewrite filter_comm, (visits_at_path r) by done.
  rewrite filter_failing_pair.
  rewrite <- list_fmap_compose. apply list_fmap_id.
Qed.

Lemma DetailedErrors_all_results r entries :
  range_of (Fields r) entries →
  all_results (Fields (DetailedErrors entries)) ≡ₚ
    filter (λ vr, failing vr = true) (all_results (Fields r)).
Proof.
  intros Hr. rewrite DetailedErrors_record_all, all_results_record_all.
  simpl. unfold all_results at 1. rewrite map_to_list_empty. simpl.
  rewrite filter_failing_snd.
  by rewrite (visits_all_results r).
Qed.

Lemma count_failing_zero r :
  reachable r → Results_Valid r = false ↔ count_failing r ≠ 0.
Proof.
  intros Hr. rewrite (reachable_Valid r Hr). unfold count_failing, failing.
  induction (all_results (Fields r)) as [|vr l IH]; simpl.
  - split; [done|]. intros H. by destruct H.
  - rewrite filter_cons. destruct (Valid vr); simpl.
    + destruct (decide (false = true)); [done|]. apply IH.
    + destruct (decide (true = true)); [|done]. simpl. split; [lia|done].
Qed.
End results_views.

Section results_claims.
Implicit Types (r : Results) (vr result : ValueResult).
Implicit Types (entries : list (string * list ValueResult)).

Lemma reachable_record_all calls : reachable (record_all NewResults calls).
Proof.
  induction calls as [|c calls IH] using rev_ind; [constructor|].
  unfold record_all in *. rewrite foldl_snoc. by constructor.
Qed.

Lemma record_all_Valid (calls : list (string * ValueResult)) :
  Results_Valid (record_all NewResults calls) = forallb Valid calls.*2.
Proof.
  rewrite reachable_Valid by apply reachable_record_all.
  apply forallb_Permutation. rewrite all_results_record_all.
  simpl. unfold all_results. by rewrite map_to_list_empty.
Qed.

Lemma eachEntry_logging_fst {S} (f : Visitor S) entries s log :
  (eachEntry (logging f) entries (s, log)).1.1 = (eachEntry f entries s).1.
Proof.
  revert s log. induction entries as [|[p l] entries IH]; intros s log; [done|].
  simpl.
  assert (∀ s log,
    (eachPathResult (logging f) p l (s, log)).1.1 = (eachPathResult f p l s).1 ∧
    (eachPathResult (logging f) p l (s, log)).2 = (eachPathResult f p l s).2) as Hin.
  { clear. induction l as [|vr l IHl]; intros s log; [done|].
    simpl. unfold logging at 1 3. simpl.
    destruct (f p vr s) as [s' [|]]; [apply IHl|done]. }
  destruct (Hin s log) as [H1 H2].
  destruct (eachPathResult (logging f) p l (s, log)) as [[s1 log1] k1].
  destruct (eachPathResult f p l s) as [s2 k2]. simpl in *. subst.
  destruct k2; [apply IH|done].
Qed.
End results_claims.



(** C7. For a reachable result set, [DetailedErrors()] holds as many failing
    records as [Fields] has records with [Valid = false], and holds nothing
    else; at every path it holds the failing records of that path, in their
    order; and the receiver's [Valid] flag is [false] exactly when that count
    is not zero.  This holds for every order in which the map is ranged
    over. *)
Theorem DetailedErrors_complete (r : Results) (entries : list (string * list ValueResult)) :
  reachable r → range_of (Fields r) entries →
  count_failing (DetailedErrors entries) = count_failing r
  ∧ length (all_results (Fields (DetailedErrors entries))) = count_failing r
  ∧ (∀ p, default [] (Fields (DetailedErrors entries) !! p) =
            filter (λ vr, failing vr = true) (default [] (Fields r !! p)))
  ∧ (Results_Valid r = false ↔ count_failing r ≠ 0).
Proof.
  intros Hreach Hr. pose proof (DetailedErrors_all_results r entries Hr) as Hall.
  repeat split.
  - unfold count_failing. rewrite Hall.
    by rewrite list_filter_filter_r.
  - unfold count_failing. by rewrite Hall.
  - intros p. by apply DetailedErrors_lookup.
  - by apply count_failing_zero.
  - by apply count_failing_zero.
Qed.

Lemma DetailedErrors_complete_witness :
  let entries := map_to_list (Fields sample_results) in
  count_failing (DetailedErrors entries) = count_failing sample_results
  ∧ length (all_results (Fields (DetailedErrors entries))) = count_failing sample_results
  ∧ (∀ p, default [] (Fields (DetailedErrors entries) !! p) =
            filter (λ vr, failing vr = true) (default [] (Fields sample_results !! p)))
  ∧ (Results_Valid sample_results = false ↔ count_failing sample_results ≠ 0).
Proof.
  apply (DetailedErrors_complete sample_results).
  - unfold sample_results. repeat constructor.
  - apply Permutation_refl.
Defined.

(** C8. For every result set and every order of iteration, [Errors()]
    returns one error per failing record and none for a valid record: the
    errors are the failing records of [Fields] with their paths, and each
    renders through [Error()] as [@path '<path>': <message>]. *)
Theorem Errors_one_per_failing_record (r : Results) (entries : list (string * list ValueResult)) :
  range_of (Fields r) entries →
  Errors entries =
    (λ c, mkValueResultError c.1 c.2) <$>
      filter (λ c, failing c.2 = true) (visits entries)
  ∧ length (Errors entries) = count_failing r
  ∧ (∀ e, e ∈ Errors entries ↔
          ∃ l, Fields r !! path e = Some l ∧ valueResult e ∈ l ∧
               Valid (valueResult e) = false)
  ∧ Error <$> Errors entries =
      (λ c, "@path '" +:+ c.1 +:+ "': " +:+ Message c.2) <$>
        filter (λ c, failing c.2 = true) (visits entries).
Proof.
  intros Hr. rewrite Errors_filter. repeat split.
  - rewrite length_fmap. unfold count_failing.
    rewrite <- (visits_all_results r entries Hr), <- filter_failing_snd.
    by rewrite length_fmap.
  - intros He. apply list_elem_of_fmap in He as ([p vr] & -> & Hin).
    apply list_elem_of_filter in Hin as [Hf Hin]. simpl in *.
    apply (elem_of_visits_range r) in Hin as (l & Hl & Hvr); [|done].
    exists l. unfold failing in Hf. by destruct (Valid vr).
  - intros (l & Hl & Hvr & Hf). destruct e as [p vr]. simpl in *.
    apply list_elem_of_fmap. exists (p, vr). split; [done|].
    apply list_elem_of_filter. split.
    + simpl. unfold failing. by rewrite Hf.
    + apply (elem_of_visits_range r); eauto.
  - rewrite <- list_fmap_compose. done.
Qed.

Lemma Errors_one_per_failing_record_witness :
  let entries := map_to_list (Fields sample_results) in
  Errors entries =
    (λ c, mkValueResultError c.1 c.2) <$>
      filter (λ c, failing c.2 = true) (visits entries)
  ∧ length (Errors entries) = count_failing sample_results
  ∧ (∀ e, e ∈ Errors entries ↔
          ∃ l, Fields sample_results !! path e = Some l ∧ valueResult e ∈ l ∧
               Valid (valueResult e) = false)
  ∧ Error <$> Errors entries =
      (λ c, "@path '" +:+ c.1 +:+ "': " +:+ Message c.2) <$>
        filter (λ c, failing c.2 = true) (visits entries).
Proof.
  apply (Errors_one_per_failing_record sample_results). apply Permutation_refl.
Defined.

(** C9. [EachResult(visit)] calls the visitor on the recorded results with
    their paths, each at most once and path by path; a call that returns
    [false] is the last call made, and the iteration stops early only at such
    a call; a visitor that always returns [true] is called exactly once for
    every recorded result.  The calls are observed by logging them; logging
    does not change what the visitor computes. *)
Theorem EachResult_early_stop {S : Type} (f : Visitor S) (r : Results)
    (entries : list (string * list ValueResult)) (s : S) :
  range_of (Fields r) entries →
  let out := EachResult entries (logging f) (s, []) in
  out.1 = EachResult entries f s
  ∧ out.1 = state_after f s out.2
  ∧ out.2 `prefix_of` visits entries
  ∧ visits entries ≡ₚ visits (map_to_list (Fields r))
  ∧ (∀ pre c, pre ++ [c] `prefix_of` out.2 →
       (f c.1 c.2 (state_after f s pre)).2 = false → out.2 = pre ++ [c])
  ∧ (out.2 = visits entries ∨
     ∃ pre c, out.2 = pre ++ [c] ∧ (f c.1 c.2 (state_after f s pre)).2 = false)
  ∧ ((∀ p vr s', (f p vr s').2 = true) → out.2 = visits entries).
Proof.
  intros Hr. unfold EachResult. split; [apply eachEntry_logging_fst|].
  rewrite eachEntry_logging. simpl.
  pose proof (walk_state f (visits entries) s) as Hstate.
  pose proof (walk_prefix f (visits entries) s) as Hprefix.
  pose proof (walk_stop f (visits entries) s) as Hstop.
  pose proof (walk_unfinished f (visits entries) s) as Hunf.
  pose proof (walk_finished f (visits entries) s) as Hfin.
  pose proof (walk_all f (visits entries) s) as Hall.
  destruct (walk f (visits entries) s) as [[s' made] fin]. simpl in *.
  repeat split; try done.
  - by apply visits_Permutation.
  - destruct fin; [left; by apply Hfin|right; by apply Hunf].
  - intros Hf. specialize (Hall Hf). by inversion Hall.
Qed.

Lemma EachResult_early_stop_witness :
  let entries := map_to_list (Fields sample_results) in
  let out := EachResult entries (logging stop_at_failure) (0, []) in
  out.1 = EachResult entries stop_at_failure 0
  ∧ out.1 = state_after stop_at_failure 0 out.2
  ∧ out.2 `prefix_of` visits entries
  ∧ visits entries ≡ₚ visits (map_to_list (Fields sample_results))
  ∧ (∀ pre c, pre ++ [c] `prefix_of` out.2 →
       (stop_at_failure c.1 c.2 (state_after stop_at_failure 0 pre)).2 = false →
       out.2 = pre ++ [c])
  ∧ (out.2 = visits entries ∨
     ∃ pre c, out.2 = pre ++ [c] ∧
              (stop_at_failure c.1 c.2 (state_after stop_at_failure 0 pre)).2 = false)
  ∧ ((∀ p vr s', (stop_at_failure p vr s').2 = true) → out.2 = visits entries).
Proof.
  apply (EachResult_early_stop stop_at_failure sample_results). apply Permutation_refl.
Defined.

(** ** Go values *)

Section value_lemmas.
Implicit Types (x y v w : value).

(** Induction over values, with the elements of a slice. *)
Lemma value_ind (P : value → Prop) :
  P Nil → (∀ b, P (Bool b)) → (∀ n, P (Int n)) → (∀ f, P (Float64 f)) →
  (∀ s, P (Str s)) → (∀ d, P (Duration d)) → P (Slice None) →
  (∀ l, Forall P l → P (Slice (Some l))) →
  ∀ v, P v.
Proof.
  intros HNil HBool HInt HFloat HStr HDur HNone HSome.
  fix IH 1. intros [|b|n|f|s|d|[l|]];
    [apply HNil|apply HBool|apply HInt|apply HFloat|apply HStr|apply HDur| |apply HNone].
  apply HSome. induction l as [|x l IHl]; constructor; [apply IH|apply IHl].
Qed.

Lemma SFeqb_spec (a b : spec_float) :
  SFeqb a b = true ↔ float_no_nan a = true ∧ float_zero_blind a = float_zero_blind b.
Proof.
  unfold SFeqb.
  destruct a as [[]|[]| |[] m1 e1], b as [[]|[]| |[] m2 e2]; simpl;
    try (split; [done|intros [? ?]; done]); try (split; done).
  all: change (Pos.compare_cont Eq m1 m2) with (m1 ?= m2)%positive.
  all: destruct (e1 ?= e2)%Z eqn:He;
    [apply Z.compare_eq in He; subst e2
    |split; [done|intros [_ [= -> ->]]; by rewrite Z.compare_refl in He]..].
  all: destruct (m1 ?= m2)%positive eqn:Hm; simpl;
    [apply Pos.compare_eq in Hm; by subst m2
    |split; [done|intros [_ [= ->]]; by rewrite Pos.compare_refl in Hm]..].
Qed.

Lemma DeepEqual_spec x y :
  DeepEqual x y = true ↔ no_nan x = true ∧ zero_blind x = zero_blind y.
Proof.
  revert y. induction x as [|b|n|f|s|d| |l IH] using value_ind;
    intros [|b'|n'|f'|s'|d'|[l'|]]; simpl;
    try (split; [done|]; intros [? [=]]; done); try done.
  - rewrite Bool.eqb_true_iff. split; [by intros ->|]. by intros [_ [= ->]].
  - rewrite Z.eqb_eq. split; [by intros ->|]. by intros [_ [= ->]].
  - rewrite SFeqb_spec. split; intros [? Heq]; split; try done; congruence.
  - rewrite String.eqb_eq. split; [by intros ->|]. by intros [_ [= ->]].
  - rewrite Z.eqb_eq. split; [by intros ->|]. by intros [_ [= ->]].
  - revert l'. induction IH as [|x l Hx _ IHl]; intros [|y l']; simpl;
      try (split; [done|]; intros [? [=]]; done); try done.
    rewrite !andb_true_iff, Hx, IHl. split.
    + intros [[? Hxy] [? [= Hl]]]. repeat split; try done. congruence.
    + intros [[? ?] [= Hxy Hl]]. repeat split; try done. congruence.
Qed.


Lemma ObjectsAreEqual_DeepEqual x y : ObjectsAreEqual x y = DeepEqual x y.
Proof. by destruct x as [| | | | | |[?|]], y as [| | | | | |[?|]]. Qed.


(** *** Strings *)

Lemma HasPrefix_spec s p : HasPrefix s p = true ↔ ∃ b, s = p +:+ b.
Proof.
  revert s. induction p as [|c p IH]; intros s; simpl.
  - split; [|done]. intros _. by exists s.
  - destruct s as [|d s]; simpl.
    + split; [done|]. by intros [b [=]].
    + destruct (Ascii.eqb c d) eqn:Hcd.
      * apply Ascii.eqb_eq in Hcd as ->. rewrite IH.
        split; intros [b Hb]; exists b; [by rewrite Hb|by injection Hb].
      * split; [done|]. intros [b [= -> _]].
        by rewrite Ascii.eqb_refl in Hcd.
Qed.

Lemma Contains_spec s substr :
  Contains s substr = true ↔ ∃ a b, s = a +:+ substr +:+ b.
Proof.
  induction s as [|c s IH].
  - simpl. rewrite orb_false_r, HasPrefix_spec. split.
    + intros [b Hb]. by exists "", b.
    + intros (a & b & Hab). destruct a; [by exists b|done].
  - cbn [Contains]. rewrite orb_true_iff, IH, HasPrefix_spec. split.
    + intros [[b Hb]|(a & b & Hab)].
      * by exists "", b.
      * exists (String c a), b. simpl. by rewrite Hab.
    + intros (a & b & Hab). destruct a as [|c' a].
      * left. by exists b.
      * right. injection Hab as -> Hs. by exists a, b.
Qed.

Lemma append_assoc (a b c : string) : (a +:+ b) +:+ c = a +:+ b +:+ c.
Proof.
  induction a as [|ch a IH]; [done|].
  change (String ch ((a +:+ b) +:+ c) = String ch (a +:+ b +:+ c)).
  by rewrite IH.
Qed.

Lemma append_nil_r (a : string) : a +:+ "" = a.
Proof.
  induction a as [|ch a IH]; [done|].
  change (String ch (a +:+ "") = String ch a). by rewrite IH.
Qed.

End value_lemmas.

(** ** Predicates *)

Section predicate_lemmas.
Context (F : Fmt).

Lemma check_Is n (f : ValueValidator) v : check (Is n f) v true = f v.
Proof. done. Qed.

Lemma firstValid_Some of_ v vr :
  firstValid of_ v = Some vr →
  ∃ pre def post, of_ = pre ++ def :: post ∧ vr = check def v true ∧
    Valid vr = true ∧ Forall (λ p, Valid (check p v true) = false) pre.
Proof.
  induction of_ as [|d of_ IH]; simpl; [done|].
  destruct (Valid (check d v true)) eqn:Hd.
  - intros [= <-]. by exists [], d, of_.
  - intros (pre & def & post & -> & -> & Hv & Hpre)%IH.
    exists (d :: pre), def, post. repeat split; try done. by constructor.
Qed.



Lemma firstValid_existsb of_ v :
  is_Some (firstValid of_ v) ↔ existsb (λ def, Valid (check def v true)) of_ = true.
Proof.
  induction of_ as [|d of_ IH]; simpl.
  - split; [by intros [? ?]|done].
  - destruct (Valid (check d v true)); simpl; [|done]. split; eauto.
Qed.
End predicate_lemmas.



(** C10. [IsAny()] with no candidate is never valid: on every value its check
    returns an invalid record, the failure that names no candidate. *)
Theorem IsAny_empty (F : Fmt) (x : value) (keyExists : bool) :
  Valid (check (IsAny F []) x keyExists) = false
  ∧ check (IsAny F []) x true =
      mkValueResult false
        ("Value was none of []string{}, actual value was " +:+ fmt_sharp_v F x).
Proof. split; [by destruct keyExists|done]. Qed.

(** C5. The check of [IsStringContaining(needle)] returns an invalid record
    with the type-mismatch message when the value is not a string; a valid
    record when the value is a string in which [needle] occurs; and an
    invalid record with the did-not-contain-substring message when the value
    is a string in which it does not. *)
Theorem IsStringContaining_check (F : Fmt) (needle : string) (v : value) :
  ((∀ s, v ≠ Str s) →
     check (IsStringContaining F needle) v true =
       mkValueResult false ("Unable to convert '" +:+ fmt_v F v +:+ "' to string"))
  ∧ (∀ s, v = Str s →
       ((∃ a b, s = a +:+ needle +:+ b) →
          check (IsStringContaining F needle) v true = ValidVR)
       ∧ (¬ (∃ a b, s = a +:+ needle +:+ b) →
          check (IsStringContaining F needle) v true =
            mkValueResult false
              ("String '" +:+ s +:+ "' did not contain substring '" +:+
               needle +:+ "'"))).
Proof.
  unfold IsStringContaining. rewrite check_Is. split.
  - intros Hv. destruct v; try done. by destruct (Hv s).
  - intros s ->. rewrite <- Contains_spec. split.
    + by intros ->.
    + intros Hc. by destruct (Contains s needle).
Qed.

Lemma IsStringContaining_check_witness :
  check (IsStringContaining fmt_plain "foo") (Int 42) true =
    mkValueResult false "Unable to convert '42' to string"
  ∧ check (IsStringContaining fmt_plain "foo") (Str "foobar") true = ValidVR
  ∧ check (IsStringContaining fmt_plain "foo") (Str "bar") true =
      mkValueResult false "String 'bar' did not contain substring 'foo'".
Proof.
  split; [|split].
  - apply (proj1 (IsStringContaining_check fmt_plain "foo" (Int 42))).
    intros s. discriminate.
  - apply (proj2 (IsStringContaining_check fmt_plain "foo" (Str "foobar")) "foobar").
    + reflexivity.
    + exists "", "bar". reflexivity.
  - apply (proj2 (IsStringContaining_check fmt_plain "foo" (Str "bar")) "bar").
    + reflexivity.
    + intros H. apply Contains_spec in H. discriminate.
Defined.

(** *** Equality *)

Lemma IsEqual_valid_iff (F : Fmt) (to v : value) :
  Valid (check (IsEqual F to) v true) = true ↔
    no_nan v = true ∧ zero_blind v = zero_blind to.
Proof.
  unfold IsEqual. rewrite check_Is, ObjectsAreEqual_DeepEqual, <- DeepEqual_spec.
  by destruct (DeepEqual v to).
Qed.


(** It accepts a zero checked against the zero of the other sign. *)
Lemma IsEqual_zero_signs : check (IsEqual fmt_plain pos_zero) neg_zero true = ValidVR.
Proof. reflexivity. Qed.



(** C4. [IsEqualToValue] is looser than [IsEqual]: whenever the check of
    [IsEqual(e)] on [v] is valid, so is the check of [IsEqualToValue(e)]; and
    there are pairs that differ only in their numeric type, the int 1 against
    the float 1.0 and the int 5 against the duration 5, on which
    [IsEqualToValue] is valid and [IsEqual] is not. *)
Theorem IsEqualToValue_looser (F : Fmt) :
  (∀ e v, Valid (check (IsEqual F e) v true) = true →
          Valid (check (IsEqualToValue F e) v true) = true)
  ∧ (Valid (check (IsEqualToValue F float_one) (Int 1) true) = true
     ∧ Valid (check (IsEqual F float_one) (Int 1) true) = false)
  ∧ (Valid (check (IsEqualToValue F (Duration 5)) (Int 5) true) = true
     ∧ Valid (check (IsEqual F (Duration 5)) (Int 5) true) = false).
Proof.
  split; [|done].
  intros e v. unfold IsEqual, IsEqualToValue, ObjectsAreEqualValues.
  rewrite !check_Is. by destruct (ObjectsAreEqual v e).
Qed.

Lemma IsEqualToValue_looser_witness :
  Valid (check (IsEqualToValue fmt_plain (Str "beat")) (Str "beat") true) = true.
Proof.
  apply (proj1 (IsEqualToValue_looser fmt_plain) (Str "beat") (Str "beat")).
  reflexivity.
Defined.

(** C6. At a leaf, [KeyMissing] matches exactly when the key is absent from
    the enclosing map, and it is settled without a value: it has no checking
    function and its outcome does not depend on the value handed to it.
    [KeyPresent] matches exactly when the key is in the map, also when its
    value is nil, and does not match an absent key. *)
Theorem KeyMissing_KeyPresent (m : gmap string value) (key : string) :
  (Valid (checkKey KeyMissing m key) = true ↔ m !! key = None)
  ∧ (Valid (checkKey KeyPresent m key) = true ↔ is_Some (m !! key))
  ∧ Valid (checkKey KeyPresent (<[key := Nil]> m) key) = true
  ∧ checker KeyMissing = None
  ∧ (∀ v v' keyExists, check KeyMissing v keyExists = check KeyMissing v' keyExists).
Proof.
  unfold checkKey. rewrite lookup_insert_eq.
  destruct (m !! key) as [v|]; simpl; repeat split; done.
Qed.

(** ** Examples *)

Example sample_results_Fields :
  map_to_list (Fields sample_results) =
    [("a", [ValidVR; mkValueResult false "objects not equal"]);
     ("b", [mkValueResult false "expected to see a key here"])].
Proof. vm_compute. reflexivity. Qed.

Example sample_results_Valid : Results_Valid sample_results = false.
Proof. reflexivity. Qed.

Example sample_Errors :
  Error <$> Errors (map_to_list (Fields sample_results)) =
    ["@path 'a': objects not equal"; "@path 'b': expected to see a key here"].
Proof. vm_compute. reflexivity. Qed.

Example sample_Errors_other_order :
  Error <$> Errors (reverse (map_to_list (Fields sample_results))) =
    ["@path 'b': expected to see a key here"; "@path 'a': objects not equal"].
Proof. vm_compute. reflexivity. Qed.

Example sample_DetailedErrors :
  map_to_list (Fields (DetailedErrors (map_to_list (Fields sample_results)))) =
    [("a", [mkValueResult false "objects not equal"]);
     ("b", [mkValueResult false "expected to see a key here"])]
  ∧ Results_Valid (DetailedErrors (map_to_list (Fields sample_results))) = false.
Proof. vm_compute. done. Qed.

Example sample_early_stop :
  EachResult (map_to_list (Fields sample_results)) (logging stop_at_failure) (0, []) =
    (2, [("a", ValidVR); ("a", mkValueResult false "objects not equal")]).
Proof. vm_compute. reflexivity. Qed.

Example IsAny_name :
  name (IsAny fmt_plain [IsNil fmt_plain; IsStringContaining fmt_plain "foo"]) =
    "either []string{" +:+ dquote +:+ "is nil" +:+ dquote +:+ ", " +:+
    dquote +:+ "is string containing" +:+ dquote +:+ "}".
Proof. vm_compute. reflexivity. Qed.

Example IsAny_none_valid :
  check (IsAny fmt_plain [IsNil fmt_plain; IsStringContaining fmt_plain "foo"])
        (Int 3) true =
    mkValueResult false
      ("Value was none of []string{" +:+ dquote +:+ "is nil" +:+ dquote +:+ ", " +:+
       dquote +:+ "is string containing" +:+ dquote +:+ "}, actual value was 3").
Proof. vm_compute. reflexivity. Qed.

Example IsAny_KeyMissing_candidate :
  Valid (check (IsAny fmt_plain [KeyMissing]) (Int 3) true) = false
  ∧ check (IsAny fmt_plain [KeyPresent]) (Int 3) true = ValidVR.
Proof. vm_compute. done. Qed.

Example float64_of_int_one : float64_of_int 1 = S754_finite false 4503599627370496 (-52).
Proof. vm_compute. reflexivity. Qed.

Example int_of_float64_truncates :
  int_of_float64 (S754_finite true 6755399441055744 (-52)) = (-1)%Z.
Proof. vm_compute. reflexivity. Qed.

Example string_of_rune_ascii : string_of_rune 65 = "A".
Proof. vm_compute. reflexivity. Qed.

Example IsEqual_nil_slice_and_empty_slice :
  Valid (check (IsEqual fmt_plain (Slice None)) (Slice (Some [])) true) = false
  ∧ Valid (check (IsEqual fmt_plain Nil) (Slice None) true) = false
  ∧ check (IsEqual fmt_plain Nil) Nil true = ValidVR.
Proof. vm_compute. done. Qed.

Example IsEqual_message :
  check (IsEqual fmt_plain (Int 1)) (Str "1") true =
    mkValueResult false "objects not equal: actual(1) != expected(1)".
Proof. vm_compute. reflexivity. Qed.

(** The schema [{"a": IsEqual(1), "b": KeyMissing}] against the map
    [{"a": 1, "c": 2}], leaf by leaf. *)
Example leaves_of_a_small_map :
  let m : gmap string value := <["a" := Int 1]> (<["c" := Int 2]> ∅) in
  checkKey (IsEqual fmt_plain (Int 1)) m "a" = ValidVR
  ∧ checkKey KeyMissing m "b" = ValidVR
  ∧ Valid (checkKey KeyMissing m "c") = false
  ∧ Valid (checkKey KeyPresent m "b") = false.
Proof. vm_compute. done. Qed.

(** * Further properties *)

(** ** Result sets *)

Lemma record_nonempty (r : Results) (p : string) (result : ValueResult) :
  nonempty_fields (Fields r) → nonempty_fields (Fields (record r p result)).
Proof.
  intros Hr p' l. unfold record; simpl.
  destruct (Fields r !! p) as [l0|] eqn:Hp;
    (destruct (decide (p = p')) as [->|Hne];
      [rewrite lookup_insert_eq; intros [= <-]|rewrite lookup_insert_ne by done; apply Hr]).
  - by destruct l0.
  - done.
Qed.

Lemma reachable_nonempty (r : Results) : reachable r → nonempty_fields (Fields r).
Proof.
  induction 1 as [|r p result _ IH].
  - intros p l. simpl. by rewrite lookup_empty.
  - by apply record_nonempty.
Qed.

(** Two maps without empty entries that hold the same records at every path
    are the same map. *)
Lemma nonempty_fields_eq (m1 m2 : gmap string (list ValueResult)) :
  nonempty_fields m1 → nonempty_fields m2 →
  (∀ p, default [] (m1 !! p) = default [] (m2 !! p)) → m1 = m2.
Proof.
  intros H1 H2 Heq. apply map_eq. intros p. specialize (Heq p).
  destruct (m1 !! p) as [l1|] eqn:E1, (m2 !! p) as [l2|] eqn:E2; simpl in Heq.
  - by subst.
  - subst. by destruct (H1 p [] E1).
  - subst. by destruct (H2 p [] E2).
  - done.
Qed.

Lemma visits_record (r : Results) (p : string) (result : ValueResult) :
  visits (map_to_list (Fields (record r p result))) ≡ₚ
    (p, result) :: visits (map_to_list (Fields r)).
Proof.
  unfold record; simpl.
  destruct (Fields r !! p) as [l|] eqn:Hp.
  - assert (map_to_list (<[p:=l ++ [result]]> (Fields r)) ≡ₚ
              (p, l ++ [result]) :: map_to_list (delete p (Fields r))) as H1.
    { rewrite <- (insert_delete_eq (Fields r)).
      apply map_to_list_insert, lookup_delete_eq. }
    rewrite (visits_Permutation _ _ H1).
    rewrite <- (visits_Permutation _ _ (map_to_list_delete (Fields r) p l Hp)).
    rewrite !visits_cons, fmap_app, <- app_assoc. simpl.
    symmetry. apply Permutation_middle.
  - rewrite (visits_Permutation _ _ (map_to_list_insert (Fields r) p [result] Hp)).
    by rewrite visits_cons.
Qed.

Lemma visits_record_all (r : Results) (calls : list (string * ValueResult)) :
  visits (map_to_list (Fields (record_all r calls))) ≡ₚ
    visits (map_to_list (Fields r)) ++ calls.
Proof.
  revert r. induction calls as [|[p result] calls IH]; intros r; simpl.
  - by rewrite app_nil_r.
  - unfold record_all in *. simpl. rewrite IH, visits_record.
    simpl. apply Permutation_middle.
Qed.

Lemma record_all_nonempty (calls : list (string * ValueResult)) :
  nonempty_fields (Fields (record_all NewResults calls)).
Proof. apply reachable_nonempty, reachable_record_all. Qed.

Lemma DetailedErrors_reachable (entries : list (string * list ValueResult)) :
  reachable (DetailedErrors entries).
Proof. rewrite DetailedErrors_record_all. apply reachable_record_all. Qed.

Lemma DetailedErrors_visits (r : Results) (entries entries' : list (string * list ValueResult)) :
  range_of (Fields r) entries →
  range_of (Fields (DetailedErrors entries)) entries' →
  visits entries' ≡ₚ filter (λ c, failing c.2 = true) (visits entries).
Proof.
  intros Hr Hr'. rewrite (visits_Permutation _ _ Hr').
  rewrite DetailedErrors_record_all, visits_record_all. simpl.
  by rewrite map_to_list_empty.
Qed.

(** X1. After any sequence of calls of [record] on a new result set, each
    path holds exactly the results recorded at that path, in the order of the
    calls, and a path that no call named has no entry. *)
Theorem record_all_per_path (calls : list (string * ValueResult)) (p : string) :
  Fields (record_all NewResults calls) !! p =
    match (filter (λ c, c.1 = p) calls).*2 with
    | [] => None
    | l => Some l
    end.
Proof.
  pose proof (record_all_lookup NewResults calls p) as Hl.
  pose proof (record_all_nonempty calls p) as Hne.
  simpl in Hl. rewrite lookup_empty in Hl. simpl in Hl. rewrite <- Hl.
  destruct (Fields (record_all NewResults calls) !! p) as [l|]; simpl; [|done].
  destruct l; [by destruct (Hne [] eq_refl)|done].
Qed.

(** X2. In every result set reachable from [NewResults()] by calls of
    [record], a path that is present in [Fields] holds at least one record. *)
Theorem reachable_fields_nonempty (r : Results) (p : string) (l : list ValueResult) :
  reachable r → Fields r !! p = Some l → 0 < length l.
Proof.
  intros Hr Hp. pose proof (reachable_nonempty r Hr p l Hp).
  destruct l; [done|simpl; lia].
Qed.

Lemma reachable_fields_nonempty_witness :
  0 < length [ValidVR; mkValueResult false "objects not equal"].
Proof.
  apply (reachable_fields_nonempty sample_results "a").
  - unfold sample_results. repeat constructor.
  - vm_compute. reflexivity.
Defined.

(** X3. Iterating over the result set built by a sequence of calls of
    [record] visits exactly the recorded (path, result) pairs, each as often
    as it was recorded, whatever the order of iteration; so the set holds as
    many records as there were calls. *)
Theorem record_then_visit (calls : list (string * ValueResult))
    (entries : list (string * list ValueResult)) :
  range_of (Fields (record_all NewResults calls)) entries →
  visits entries ≡ₚ calls
  ∧ EachResult entries (λ p vr n, (S n, true)) 0 = length calls.
Proof.
  intros Hr. assert (visits entries ≡ₚ calls) as Hv.
  { rewrite (visits_Permutation _ _ Hr), visits_record_all. simpl.
    by rewrite map_to_list_empty. }
  split; [done|].
  unfold EachResult. rewrite eachEntry_continue by done. simpl.
  rewrite <- Hv. unfold state_after.
  assert (∀ (l : list (string * ValueResult)) n,
            foldl (λ s c, ((S s, true) : nat * bool).1) n l = n + length l) as Hcount.
  { induction l as [|c l IH]; intros n; simpl; [lia|]. rewrite IH. lia. }
  apply Hcount.
Qed.

Lemma record_then_visit_witness :
  let entries := map_to_list (Fields (record_all NewResults sample_calls)) in
  visits entries ≡ₚ sample_calls
  ∧ EachResult entries (λ p vr n, (S n, true)) 0 = length sample_calls.
Proof.
  apply (record_then_visit sample_calls). apply Permutation_refl.
Defined.

(** X4. Calls of [record] at two different paths commute: the result set is
    the same in either order. *)
Theorem record_commutes (r : Results) (p1 p2 : string) (a b : ValueResult) :
  p1 ≠ p2 →
  record (record r p1 a) p2 b = record (record r p2 b) p1 a.
Proof.
  intros Hne. unfold record at 1 3. f_equal.
  - assert (Fields (record r p1 a) !! p2 = Fields r !! p2) as ->.
    { unfold record; simpl.
      destruct (Fields r !! p1); by rewrite lookup_insert_ne. }
    assert (Fields (record r p2 b) !! p1 = Fields r !! p1) as ->.
    { unfold record; simpl.
      destruct (Fields r !! p2); by rewrite lookup_insert_ne. }
    unfold record; simpl.
    destruct (Fields r !! p1), (Fields r !! p2); by rewrite insert_insert_ne.
  - simpl. by destruct (Valid a), (Valid b).
Qed.

Lemma record_commutes_witness :
  record (record NewResults "a" ValidVR) "b" (mkValueResult false "no") =
  record (record NewResults "b" (mkValueResult false "no")) "a" ValidVR.
Proof. apply (record_commutes NewResults "a" "b"). discriminate. Defined.

(** X5. [DetailedErrors()] does not depend on the order in which the map is
    ranged over: two orders of iteration give the same result set. *)
Theorem DetailedErrors_order_independent (r : Results)
    (entries1 entries2 : list (string * list ValueResult)) :
  range_of (Fields r) entries1 → range_of (Fields r) entries2 →
  DetailedErrors entries1 = DetailedErrors entries2.
Proof.
  intros H1 H2.
  assert (Fields (DetailedErrors entries1) = Fields (DetailedErrors entries2)) as HF.
  { apply nonempty_fields_eq.
    - apply reachable_nonempty, DetailedErrors_reachable.
    - apply reachable_nonempty, DetailedErrors_reachable.
    - intros p. by rewrite !(DetailedErrors_lookup r). }
  assert (Results_Valid (DetailedErrors entries1) =
          Results_Valid (DetailedErrors entries2)) as HV.
  { rewrite !reachable_Valid by apply DetailedErrors_reachable. by rewrite HF. }
  destruct (DetailedErrors entries1), (DetailedErrors entries2).
  simpl in *. by subst.
Qed.

Lemma DetailedErrors_order_independent_witness :
  DetailedErrors (map_to_list (Fields sample_results)) =
  DetailedErrors (reverse (map_to_list (Fields sample_results))).
Proof.
  apply (DetailedErrors_order_independent sample_results).
  - apply Permutation_refl.
  - apply reverse_Permutation.
Defined.

(** X6. [DetailedErrors()] is idempotent: the detailed errors of the detailed
    errors of a result set are the detailed errors of that set. *)
Theorem DetailedErrors_idempotent (r : Results)
    (entries entries' : list (string * list ValueResult)) :
  range_of (Fields r) entries →
  range_of (Fields (DetailedErrors entries)) entries' →
  DetailedErrors entries' = DetailedErrors entries.
Proof.
  intros Hr Hr'.
  assert (Fields (DetailedErrors entries') = Fields (DetailedErrors entries)) as HF.
  { apply nonempty_fields_eq.
    - apply reachable_nonempty, DetailedErrors_reachable.
    - apply reachable_nonempty, DetailedErrors_reachable.
    - intros p. rewrite (DetailedErrors_lookup (DetailedErrors entries)) by done.
      rewrite (DetailedErrors_lookup r) by done.
      by rewrite list_filter_filter_r. }
  assert (Results_Valid (DetailedErrors entries') =
          Results_Valid (DetailedErrors entries)) as HV.
  { rewrite !reachable_Valid by apply DetailedErrors_reachable. by rewrite HF. }
  destruct (DetailedErrors entries'), (DetailedErrors entries).
  simpl in *. by subst.
Qed.

Lemma DetailedErrors_idempotent_witness :
  DetailedErrors
    (map_to_list (Fields (DetailedErrors (map_to_list (Fields sample_results))))) =
  DetailedErrors (map_to_list (Fields sample_results)).
Proof.
  apply (DetailedErrors_idempotent sample_results); apply Permutation_refl.
Defined.

(** X7. The [Valid] flag of [DetailedErrors()] is [true] exactly when the
    receiver holds no failing record; for a receiver reachable from
    [NewResults()] by calls of [record] it is the receiver's own flag. *)
Theorem DetailedErrors_Valid (r : Results) (entries : list (string * list ValueResult)) :
  range_of (Fields r) entries →
  (Results_Valid (DetailedErrors entries) = true ↔ count_failing r = 0)
  ∧ (reachable r → Results_Valid (DetailedErrors entries) = Results_Valid r).
Proof.
  intros Hr.
  assert (Results_Valid (DetailedErrors entries) = true ↔ count_failing r = 0) as Hiff.
  { rewrite reachable_Valid by apply DetailedErrors_reachable.
    rewrite (forallb_Permutation _ _ _ (DetailedErrors_all_results r entries Hr)).
    unfold count_failing.
    induction (all_results (Fields r)) as [|vr l IH]; [done|].
    rewrite filter_cons. destruct (decide (failing vr = true)) as [Hvr|Hvr]; [|done].
    simpl. unfold failing in Hvr. destruct (Valid vr); [done|]. simpl.
    split; [done|lia]. }
  split; [done|]. intros Hreach.
  pose proof (count_failing_zero r Hreach) as Hz.
  destruct (Results_Valid r) eqn:Hv.
  - apply Hiff. destruct (count_failing r); [done|].
    assert (true = false) by (by apply Hz). done.
  - apply not_true_is_false. rewrite Hiff. by apply Hz.
Qed.

Lemma DetailedErrors_Valid_witness :
  let entries := map_to_list (Fields sample_results) in
  (Results_Valid (DetailedErrors entries) = true ↔ count_failing sample_results = 0)
  ∧ (reachable sample_results →
     Results_Valid (DetailedErrors entries) = Results_Valid sample_results).
Proof.
  apply (DetailedErrors_Valid sample_results). apply Permutation_refl.
Defined.

(** X8. The errors of [Errors()] are the same for every order of iteration,
    up to their order in the list, and [Errors()] of [DetailedErrors()] are
    the errors of the receiver. *)
Theorem Errors_order_and_view (r : Results)
    (entries1 entries2 entries' : list (string * list ValueResult)) :
  range_of (Fields r) entries1 → range_of (Fields r) entries2 →
  range_of (Fields (DetailedErrors entries1)) entries' →
  Errors entries1 ≡ₚ Errors entries2 ∧ Errors entries' ≡ₚ Errors entries1.
Proof.
  intros H1 H2 H'. rewrite !Errors_filter. split.
  - apply fmap_Permutation, filter_Permutation.
    apply visits_Permutation. unfold range_of in *. by rewrite H1, H2.
  - apply fmap_Permutation.
    rewrite (DetailedErrors_visits r entries1 entries' H1 H').
    by rewrite list_filter_filter_r.
Qed.

Lemma Errors_order_and_view_witness :
  let entries := map_to_list (Fields sample_results) in
  Errors entries ≡ₚ Errors (reverse entries)
  ∧ Errors (map_to_list (Fields (DetailedErrors entries))) ≡ₚ Errors entries.
Proof.
  apply (Errors_order_and_view sample_results).
  - apply Permutation_refl.
  - apply reverse_Permutation.
  - apply Permutation_refl.
Defined.

(** X9. For a result set reachable from [NewResults()] by calls of [record],
    [Errors()] is empty exactly when the set is valid. *)
Theorem Errors_empty_iff_Valid (r : Results) (entries : list (string * list ValueResult)) :
  reachable r → range_of (Fields r) entries →
  Errors entries = [] ↔ Results_Valid r = true.
Proof.
  intros Hreach Hr.
  pose proof (count_failing_zero r Hreach) as Hz.
  assert (length (Errors entries) = count_failing r) as Hlen.
  { rewrite Errors_filter, length_fmap. unfold count_failing.
    rewrite <- (visits_all_results r entries Hr), <- filter_failing_snd.
    by rewrite length_fmap. }
  split.
  - intros He. rewrite He in Hlen. simpl in Hlen.
    apply not_false_is_true. intros Hf. apply Hz in Hf. congruence.
  - intros Hv. destruct (Errors entries) as [|e l]; [done|].
    simpl in Hlen. assert (count_failing r ≠ 0) as Hc by lia.
    apply Hz in Hc. congruence.
Qed.

Lemma Errors_empty_iff_Valid_witness :
  Errors (map_to_list (Fields (record NewResults "a" ValidVR))) = [] ↔
  Results_Valid (record NewResults "a" ValidVR) = true.
Proof.
  apply (Errors_empty_iff_Valid (record NewResults "a" ValidVR)).
  - repeat constructor.
  - apply Permutation_refl.
Defined.

(** X10. A visitor that returns [false] on every call is called once when
    the result set holds a record, on the first record of the iteration, and
    never when it holds none. *)
Theorem EachResult_stops_at_first_call {S : Type} (f : Visitor S)
    (entries : list (string * list ValueResult)) (s : S) :
  (∀ p vr s', (f p vr s').2 = false) →
  (EachResult entries (logging f) (s, [])).2 = take 1 (visits entries).
Proof.
  intros Hf. unfold EachResult. rewrite eachEntry_logging. simpl.
  destruct (visits entries) as [|c calls]; [done|]. simpl.
  specialize (Hf c.1 c.2 s). destruct (f c.1 c.2 s) as [s' k].
  simpl in Hf. by subst k.
Qed.

Lemma EachResult_stops_at_first_call_witness :
  (EachResult (map_to_list (Fields sample_results)) (logging stop_at_once) (0, [])).2 =
    take 1 (visits (map_to_list (Fields sample_results))).
Proof.
  apply (EachResult_stops_at_first_call stop_at_once). reflexivity.
Defined.

(** ** Predicates *)

Lemma no_nan_zero_blind (v : value) : no_nan (zero_blind v) = no_nan v.
Proof.
  induction v as [|b|n|f|s|d| |l IH] using value_ind; simpl; try done.
  - by destruct f.
  - induction IH as [|x l Hx _ IHl]; simpl; [done|]. by rewrite Hx, IHl.
Qed.

Lemma DeepEqual_sym (x y : value) : DeepEqual x y = DeepEqual y x.
Proof.
  apply eq_true_iff_eq. rewrite !DeepEqual_spec. split; intros [Hn Heq]; split; try done.
  - by rewrite <- no_nan_zero_blind, <- Heq, no_nan_zero_blind.
  - by rewrite <- no_nan_zero_blind, <- Heq, no_nan_zero_blind.
Qed.

Lemma append_length (a b : string) :
  String.length (a +:+ b) = String.length a + String.length b.
Proof.
  induction a as [|ch a IH]; [done|].
  change (S (String.length (a +:+ b)) = S (String.length a + String.length b)).
  by rewrite IH.
Qed.

Lemma append_nonempty_r (a b : string) : b ≠ "" → a +:+ b ≠ "".
Proof.
  intros Hb Hab. apply (f_equal String.length) in Hab.
  rewrite append_length in Hab. destruct b; [done|]. simpl in Hab. lia.
Qed.

Lemma IsAny_valid_existsb (F : Fmt) (of_ : list IsDef) (v : value) :
  Valid (check (IsAny F of_) v true) = existsb (λ def, Valid (check def v true)) of_.
Proof.
  unfold IsAny. rewrite check_Is. apply eq_true_iff_eq.
  rewrite <- firstValid_existsb.
  destruct (firstValid of_ v) as [vr|] eqn:Hfirst.
  - apply firstValid_Some in Hfirst as (_ & _ & _ & _ & _ & Hv & _).
    split; [by eexists|done].
  - simpl. split; [done|]. by intros [? ?].
Qed.

(** X11. The validity of [IsEqual] is symmetric in the expected and the
    actual value, and transitive: it is a partial equivalence on values. *)
Theorem IsEqual_symmetric_transitive (F : Fmt) (a b c : value) :
  Valid (check (IsEqual F a) b true) = Valid (check (IsEqual F b) a true)
  ∧ (Valid (check (IsEqual F b) a true) = true →
     Valid (check (IsEqual F c) b true) = true →
     Valid (check (IsEqual F c) a true) = true).
Proof.
  split.
  - unfold IsEqual. rewrite !check_Is, !ObjectsAreEqual_DeepEqual, (DeepEqual_sym b a).
    by destruct (DeepEqual a b).
  - rewrite !IsEqual_valid_iff. intros [Ha Hab] [Hb Hbc]. split; congruence.
Qed.

Lemma IsEqual_symmetric_transitive_witness :
  Valid (check (IsEqual fmt_plain pos_zero) neg_zero true) = true.
Proof.
  apply (proj2 (IsEqual_symmetric_transitive fmt_plain neg_zero neg_zero pos_zero));
    reflexivity.
Defined.

(** X12. [IsNil] accepts the nil interface and nothing else, a nil slice
    included, and [IsEqual(nil)] accepts exactly what [IsNil] accepts. *)
Theorem IsNil_IsEqual_nil (F : Fmt) (v : value) :
  (Valid (check (IsNil F) v true) = true ↔ v = Nil)
  ∧ Valid (check (IsNil F) (Slice None) true) = false
  ∧ Valid (check (IsEqual F Nil) v true) = Valid (check (IsNil F) v true).
Proof. by destruct v as [| | | | | |[?|]]. Qed.

(** X13. [IsEqualToValue] and [IsEqual] agree whenever the actual value has
    the type of the expected one, and whenever either of them is nil: the
    looser predicate accepts more only across two different types. *)
Theorem IsEqualToValue_same_type (F : Fmt) (to v : value) :
  TypeOf v = TypeOf to ∨ v = Nil ∨ to = Nil →
  Valid (check (IsEqualToValue F to) v true) = Valid (check (IsEqual F to) v true).
Proof.
  unfold IsEqualToValue, IsEqual, ObjectsAreEqualValues. rewrite !check_Is.
  rewrite ObjectsAreEqual_DeepEqual.
  destruct (DeepEqual v to) eqn:Heq; [done|].
  intros [Hty|[->| ->]].
  - destruct v as [| | | | | |[?|]], to as [| | | | | |[?|]];
      try discriminate Hty; simpl in *; by rewrite ?Heq.
  - by destruct to as [| | | | | |[?|]].
  - by destruct v as [| | | | | |[?|]].
Qed.

Lemma IsEqualToValue_same_type_witness :
  Valid (check (IsEqualToValue fmt_plain (Int 5)) (Int 6) true) =
    Valid (check (IsEqual fmt_plain (Int 5)) (Int 6) true).
Proof.
  apply (IsEqualToValue_same_type fmt_plain (Int 5) (Int 6)). left. reflexivity.
Defined.

(** X14. [IsIntGt(than)] accepts exactly the [int]s greater than [than]: a
    value of another type is rejected, a duration included; and it weakens
    with its bound: what [IsIntGt(than)] accepts, [IsIntGt(than')] accepts for
    every [than'] not above [than]. *)
Theorem IsIntGt_accepts (F : Fmt) (than : Z) (v : value) :
  (Valid (check (IsIntGt F than) v true) = true ↔ ∃ n, v = Int n ∧ (than < n)%Z)
  ∧ (∀ than', (than' ≤ than)%Z →
       Valid (check (IsIntGt F than) v true) = true →
       Valid (check (IsIntGt F than') v true) = true).
Proof.
  assert (∀ t, Valid (check (IsIntGt F t) v true) = true ↔ ∃ n, v = Int n ∧ (t < n)%Z)
    as Hiff.
  { intros t. unfold IsIntGt, intGtChecker. rewrite check_Is.
    destruct v as [| |n| | | |[?|]];
      try (split; [done|]; intros (n' & [=] & _); done).
    destruct (Z.gtb_spec n t); simpl.
    - split; [|done]. intros _. exists n. split; [done|lia].
    - split; [done|]. intros (n' & [= <-] & Hlt). lia. }
  split; [apply Hiff|].
  intros than' Hle. rewrite !Hiff. intros (n & -> & Hlt). exists n. split; [done|lia].
Qed.

Lemma IsIntGt_accepts_witness :
  Valid (check (IsIntGt fmt_plain 3) (Int 10) true) = true.
Proof.
  apply (proj2 (IsIntGt_accepts fmt_plain 5 (Int 10)) 3%Z); [lia|reflexivity].
Defined.

(** X15. [IsAny] of two [IsIntGt] predicates accepts what [IsIntGt] of the
    smaller bound accepts. *)
Theorem IsAny_IsIntGt_min (F : Fmt) (a b : Z) (v : value) :
  Valid (check (IsAny F [IsIntGt F a; IsIntGt F b]) v true) =
    Valid (check (IsIntGt F (Z.min a b)) v true).
Proof.
  rewrite IsAny_valid_existsb. simpl. rewrite orb_false_r.
  unfold IsIntGt, intGtChecker. rewrite !check_Is.
  destruct v as [| |n| | | |[?|]]; try done.
  destruct (Z.gtb_spec n a), (Z.gtb_spec n b), (Z.gtb_spec n (Z.min a b));
    simpl; try done; lia.
Qed.

(** X16. The predicates that test the type of the value exclude each other:
    on any value at most one of [IsNil], [IsDuration], [IsIntGt(than)] and
    [IsStringContaining(needle)] is valid; [IsDuration] is valid exactly on
    the values of type [time.Duration]. *)
Theorem type_predicates_exclusive (F : Fmt) (than : Z) (needle : string) (v : value) :
  length (filter (λ def, Valid (check def v true) = true)
            [IsNil F; IsDuration F; IsIntGt F than; IsStringContaining F needle]) ≤ 1
  ∧ (Valid (check (IsDuration F) v true) = true ↔ TypeOf v = Some TDuration).
Proof.
  split.
  - rewrite !filter_cons, filter_nil.
    unfold IsNil, IsDuration, IsIntGt, intGtChecker, IsStringContaining.
    rewrite !check_Is.
    destruct v as [| |n| |s| |[?|]]; simpl;
      repeat (case_decide; try done); simpl; lia.
  - by destruct v as [| | | | | |[?|]].
Qed.

(** X17. A leaf predicate of this file that accepts a value returns the
    shared valid record, with no message, and one that rejects a value
    returns a record with a message that is not empty. *)
Theorem leaf_records (F : Fmt) (than : Z) (needle : string) (to v : value) (def : IsDef) :
  def ∈ [IsNil F; IsDuration F; IsIntGt F than; IsStringContaining F needle;
         IsEqual F to; IsEqualToValue F to] →
  (Valid (check def v true) = true → check def v true = ValidVR)
  ∧ (Valid (check def v true) = false → Message (check def v true) ≠ "").
Proof.
  intros Hin. repeat (apply elem_of_cons in Hin as [->|Hin]);
    [| | | | | |by apply elem_of_nil in Hin].
  - destruct v as [| | | | | |[?|]]; (split; [done|]); try done.
  - destruct v as [| | | | | |[?|]]; (split; [done|]); try done.
  - unfold IsIntGt, intGtChecker. rewrite check_Is.
    destruct v as [| |n| | | |[?|]];
      try (split; [done|]; intros _; simpl; by apply append_nonempty_r).
    destruct (n >? than)%Z; (split; [done|]); [done|].
    intros _. simpl. by apply append_nonempty_r.
  - unfold IsStringContaining. rewrite check_Is.
    destruct v as [| | | |s| |[?|]]; try (split; [done|]; done).
    destruct (Contains s needle); (split; [done|]); done.
  - unfold IsEqual. rewrite check_Is.
    destruct (ObjectsAreEqual v to); (split; [done|]); done.
  - unfold IsEqualToValue. rewrite check_Is.
    destruct (ObjectsAreEqualValues v to); (split; [done|]); done.
Qed.

Lemma leaf_records_witness :
  (Valid (check (IsIntGt fmt_plain 5) (Int 3) true) = true →
   check (IsIntGt fmt_plain 5) (Int 3) true = ValidVR)
  ∧ (Valid (check (IsIntGt fmt_plain 5) (Int 3) true) = false →
     Message (check (IsIntGt fmt_plain 5) (Int 3) true) ≠ "").
Proof.
  apply (leaf_records fmt_plain 5 "foo" Nil (Int 3) (IsIntGt fmt_plain 5)).
  apply elem_of_cons. right. apply elem_of_cons. right. apply elem_of_cons. by left.
Defined.

Lemma IsStringContaining_valid_iff (F : Fmt) (needle s : string) :
  Valid (check (IsStringContaining F needle) (Str s) true) = true ↔
    ∃ a b, s = a +:+ needle +:+ b.
Proof.
  unfold IsStringContaining. rewrite check_Is, <- Contains_spec.
  by destruct (Contains s needle).
Qed.

(** X18. [IsStringContaining] at its edges: the empty needle is found in
    every string, every string contains itself, and a needle longer than the
    string is never found. *)
Theorem IsStringContaining_edges (F : Fmt) (needle s : string) :
  check (IsStringContaining F "") (Str s) true = ValidVR
  ∧ check (IsStringContaining F s) (Str s) true = ValidVR
  ∧ (String.length s < String.length needle →
     Valid (check (IsStringContaining F needle) (Str s) true) = false).
Proof.
  assert (∀ n, (∃ a b, s = a +:+ n +:+ b) →
            check (IsStringContaining F n) (Str s) true = ValidVR) as Hvalid.
  { intros n Hn. apply Contains_spec in Hn.
    unfold IsStringContaining. rewrite check_Is. by rewrite Hn. }
  split; [|split].
  - apply Hvalid. by exists "", s.
  - apply Hvalid. exists "", "". by rewrite append_nil_r.
  - intros Hlen. apply not_true_is_false. rewrite IsStringContaining_valid_iff.
    intros (a & b & ->). rewrite !append_length in Hlen. lia.
Qed.

Lemma IsStringContaining_edges_witness :
  check (IsStringContaining fmt_plain "") (Str "ab") true = ValidVR
  ∧ check (IsStringContaining fmt_plain "ab") (Str "ab") true = ValidVR
  ∧ Valid (check (IsStringContaining fmt_plain "abc") (Str "ab") true) = false.
Proof.
  pose proof (IsStringContaining_edges fmt_plain "abc" "ab") as (H1 & H2 & H3).
  split; [exact H1|split; [exact H2|]]. apply H3. simpl. lia.
Defined.

(** X19. Containment composes: when [IsStringContaining(n)] accepts the
    string [m] and [IsStringContaining(m)] accepts the string [s], then
    [IsStringContaining(n)] accepts [s]. *)
Theorem IsStringContaining_transitive (F : Fmt) (n m s : string) :
  Valid (check (IsStringContaining F n) (Str m) true) = true →
  Valid (check (IsStringContaining F m) (Str s) true) = true →
  Valid (check (IsStringContaining F n) (Str s) true) = true.
Proof.
  rewrite !IsStringContaining_valid_iff.
  intros (a & b & ->) (a' & b' & ->).
  exists (a' +:+ a), (b +:+ b'). by rewrite !append_assoc.
Qed.

Lemma IsStringContaining_transitive_witness :
  Valid (check (IsStringContaining fmt_plain "oo") (Str "a foobar") true) = true.
Proof.
  apply (IsStringContaining_transitive fmt_plain "oo" "foo" "a foobar"); reflexivity.
Defined.

(** X20. [IsAny] flattens: the check of [IsAny] over two lists of candidates
    put together is valid exactly when that of [IsAny] over one of the lists
    is, and an [IsAny] among the candidates of an [IsAny] accepts what its own
    candidates, listed in its place, accept. *)
Theorem IsAny_flattens (F : Fmt) (xs ys : list IsDef) (v : value) :
  Valid (check (IsAny F (xs ++ ys)) v true) =
    Valid (check (IsAny F xs) v true) || Valid (check (IsAny F ys) v true)
  ∧ Valid (check (IsAny F (IsAny F xs :: ys)) v true) =
      Valid (check (IsAny F (xs ++ ys)) v true).
Proof.
  rewrite !IsAny_valid_existsb. rewrite existsb_app. split; [done|].
  simpl. by rewrite IsAny_valid_existsb.
Qed.

(** X21. The validity of [IsAny] does not depend on the order of its
    candidates. *)
Theorem IsAny_order (F : Fmt) (xs ys : list IsDef) (v : value) :
  xs ≡ₚ ys →
  Valid (check (IsAny F xs) v true) = Valid (check (IsAny F ys) v true).
Proof.
  intros Hp. rewrite !IsAny_valid_existsb.
  induction Hp as [|x l l' _ IH|x y l|l l' l'' _ IH1 _ IH2]; simpl.
  - done.
  - by rewrite IH.
  - by destruct (Valid (check x v true)), (Valid (check y v true)).
  - by rewrite IH1.
Qed.

Lemma IsAny_order_witness :
  Valid (check (IsAny fmt_plain [IsNil fmt_plain; IsIntGt fmt_plain 5]) (Int 7) true) =
  Valid (check (IsAny fmt_plain [IsIntGt fmt_plain 5; IsNil fmt_plain]) (Int 7) true).
Proof.
  apply (IsAny_order fmt_plain [IsNil fmt_plain; IsIntGt fmt_plain 5]
           [IsIntGt fmt_plain 5; IsNil fmt_plain] (Int 7)).
  apply perm_swap.
Defined.
